(** * dynomite: the thread-safe thrift client facade

    A shallow embedding of [pylibs/dynomite/thrift_client.py].  The facade
    [Client] keeps one generated thrift client and one buffered transport per
    calling thread in a [threading.local] cell, connects lazily before each
    remote call and closes the calling thread's transport on [disconnect].

    The thrift library (sockets, transports, protocols) and the generated
    [Dynomite.Client] are collaborators outside the file.  They are embedded
    as a heap of sockets, a log of the events they observe, and an
    environment [Env] that decides which of their steps raise and what the
    remote store answers. *)

From stdpp Require Import base option numbers strings list gmap.

Open Scope string_scope.
Open Scope list_scope.

(** ** Python values and exceptions *)

(** What the remote store hands back; the facade never looks inside. *)
Inductive pyval :=
| PyNone
| PyBool (b : bool)
| PyInt (z : Z)
| PyStr (s : string).

Inductive exn :=
| AttributeError (attr : string)   (* a missing attribute of the local cell *)
| TException (msg : string).       (* raised by thrift or by the remote store *)

Inductive outcome (A : Type) :=
| Return (a : A)
| Raise (e : exn).
Arguments Return {A} a.
Arguments Raise {A} e.

(** ** The thrift collaborators *)

(** Sockets live in a heap and are named by their index. *)
Definition ref := nat.

Inductive status := Fresh | Opened | Closed.

Record TSocket := mkTSocket {
  sock_host : string;
  sock_port : Z;
  sock_status : status
}.

(** The wrappers built by [connect], each holding what it wraps. *)
Record TBufferedTransport := mkBuffered { trans : ref }.
Record TBinaryProtocol := mkProtocol { proto_trans : TBufferedTransport }.
Record DynomiteClient := mkDynomite { iprot : TBinaryProtocol }.

Definition socket_of (c : DynomiteClient) : ref := trans (proto_trans (iprot c)).

(** What the outside sees, in order: a transport opened (with the address
    and whether it worked), a transport closed, a call on a generated client
    with its positional arguments. *)
Inductive event :=
| EvOpen (s : ref) (host : string) (port : Z) (ok : bool)
| EvClose (s : ref)
| EvCall (s : ref) (method : string) (args : list string).

Record World := mkWorld {
  sockets : list TSocket;
  log : list event
}.

Inductive ctor := CTSocket | CTBufferedTransport | CTBinaryProtocol | CDynomiteClient.

(** The environment: which constructor raises, whether an [open] raises,
    what a remote call gives, each as a function of the history so far. *)
Record Env := mkEnv {
  ctor_raises : ctor -> list event -> option exn;
  open_raises : list event -> ref -> string -> Z -> option exn;
  call_result : list event -> ref -> string -> list string -> outcome pyval
}.

(** ** The facade *)

Definition thread := nat.

(** One thread's view of [self._con]: the attributes [connect] may set. *)
Record Local := mkLocal {
  client : option DynomiteClient;
  transport : option TBufferedTransport
}.

Definition empty_local : Local := {| client := None; transport := None |}.

Record Client := mkClient {
  _host : string;
  _port : Z;
  _con : gmap thread Local
}.

(** A thread that never set an attribute sees an empty cell. *)
Definition local_of (self : Client) (t : thread) : Local :=
  default empty_local (_con self !! t).

Definition set_local (self : Client) (t : thread) (l : Local) : Client :=
  {| _host := _host self; _port := _port self; _con := <[t := l]> (_con self) |}.

(** [__init__] *)
Definition init (host : string) (port : Z) : Client :=
  {| _host := host; _port := port; _con := ∅ |}.

(** ** A state and exception monad over the facade and the world *)

Definition M (A : Type) : Type := Client -> World -> outcome A * Client * World.

Global Instance M_ret : MRet M := fun A a self w => (Return a, self, w).

Global Instance M_bind : MBind M := fun A B k m self w =>
  match m self w with
  | (Return a, self', w') => k a self' w'
  | (Raise e, self', w') => (Raise e, self', w')
  end.

Definition raise {A} (e : exn) : M A := fun self w => (Raise e, self, w).

(** Reading the facade. *)
Definition gets {A} (f : Client -> A) : M A := fun self w => (Return (f self), self, w).

Definition emit (e : event) : M unit :=
  fun self w => (Return tt, self, {| sockets := sockets w; log := log w ++ [e] |}).

(** Constructors of the thrift stack and of the generated client. *)
Definition construct (E : Env) (c : ctor) : M unit :=
  fun self w =>
    match ctor_raises E c (log w) with
    | Some e => (Raise e, self, w)
    | None => (Return tt, self, w)
    end.

Section Facade.

Variable E : Env.

Definition alloc (k : TSocket) : M ref :=
  fun self w =>
    (Return (length (sockets w)), self, {| sockets := sockets w ++ [k]; log := log w |}).

(** [TSocket.TSocket(host, port)]: a new socket, not yet opened. *)
Definition TSocket_new (host : string) (port : Z) : M ref :=
  construct E CTSocket;; alloc (mkTSocket host port Fresh).

Definition TBufferedTransport_new (s : ref) : M TBufferedTransport :=
  construct E CTBufferedTransport;; mret (mkBuffered s).

Definition TBinaryProtocol_new (tr : TBufferedTransport) : M TBinaryProtocol :=
  construct E CTBinaryProtocol;; mret (mkProtocol tr).

Definition DynomiteClient_new (p : TBinaryProtocol) : M DynomiteClient :=
  construct E CDynomiteClient;; mret (mkDynomite p).

Definition set_status (s : ref) (st : status) : M unit :=
  fun self w =>
    (Return tt, self,
     {| sockets := alter (fun k => mkTSocket (sock_host k) (sock_port k) st) s (sockets w);
        log := log w |}).

(** [transport.open()]: connects the wrapped socket to the address it was
    built with; one connection attempt, whether it works or raises. *)
Definition transport_open (tr : TBufferedTransport) : M unit :=
  fun self w =>
    match sockets w !! trans tr with
    | None => (Raise (TException "no such socket"), self, w)   (* never built *)
    | Some k =>
        match open_raises E (log w) (trans tr) (sock_host k) (sock_port k) with
        | Some e =>
            (Raise e, self,
             {| sockets := sockets w;
                log := log w ++ [EvOpen (trans tr) (sock_host k) (sock_port k) false] |})
        | None =>
            (set_status (trans tr) Opened;;
             emit (EvOpen (trans tr) (sock_host k) (sock_port k) true)) self w
        end
    end.

(** [transport.close()] *)
Definition transport_close (tr : TBufferedTransport) : M unit :=
  set_status (trans tr) Closed;; emit (EvClose (trans tr)).

(** A method of the generated client, called with positional arguments. *)
Definition client_call (c : DynomiteClient) (method : string) (args : list string)
  : M pyval :=
  fun self w =>
    (call_result E (log w) (socket_of c) method args, self,
     {| sockets := sockets w; log := log w ++ [EvCall (socket_of c) method args] |}).

(** Attributes of [self._con] as the calling thread [t] sees them. *)
Definition hasattr_client (t : thread) : M bool :=
  gets (fun self => bool_decide (is_Some (client (local_of self t)))).

Definition getattr_client (t : thread) : M DynomiteClient :=
  l ← gets (fun self => local_of self t);
  match client l with
  | Some c => mret c
  | None => raise (AttributeError "client")
  end.

Definition getattr_transport (t : thread) : M TBufferedTransport :=
  l ← gets (fun self => local_of self t);
  match transport l with
  | Some tr => mret tr
  | None => raise (AttributeError "transport")
  end.

Definition setattr_client (t : thread) (c : DynomiteClient) : M unit :=
  fun self w =>
    (Return tt,
     set_local self t {| client := Some c; transport := transport (local_of self t) |}, w).

Definition setattr_transport (t : thread) (tr : TBufferedTransport) : M unit :=
  fun self w =>
    (Return tt,
     set_local self t {| client := client (local_of self t); transport := Some tr |}, w).

(** [Client.connect] *)
Definition connect (t : thread) : M unit :=
  has ← hasattr_client t;
  if has : bool then mret tt else
  host ← gets _host;
  port ← gets _port;
  transport ← TSocket_new host port;
  transport ← TBufferedTransport_new transport;
  protocol ← TBinaryProtocol_new transport;
  c ← DynomiteClient_new protocol;
  setattr_client t c;;
  setattr_transport t transport;;
  transport_open transport.

(** [Client.get] *)
Definition get (t : thread) (key : string) : M pyval :=
  connect t;;
  c ← getattr_client t;
  client_call c "get" [key].

(** [Client.put]; an omitted [context] is the empty string. *)
Definition put (t : thread) (key value : string) (context : option string) : M pyval :=
  let context := default "" context in
  connect t;;
  c ← getattr_client t;
  client_call c "put" [key; context; value].

(** [Client.has] *)
Definition has (t : thread) (key : string) : M pyval :=
  connect t;;
  c ← getattr_client t;
  client_call c "has" [key].

(** [Client.remove] *)
Definition remove (t : thread) (key : string) : M pyval :=
  connect t;;
  c ← getattr_client t;
  client_call c "remove" [key].

(** [Client.disconnect] *)
Definition disconnect (t : thread) : M unit :=
  tr ← getattr_transport t;
  transport_close tr.

(** [Client.__del__] *)
Definition del (t : thread) : M unit := disconnect t.

(** ** Sequences of calls *)

Inductive call :=
| Get (key : string)
| Put (key value : string) (context : option string)
| Has (key : string)
| Remove (key : string)
| Connect
| Disconnect
| Del.

Definition exec (t : thread) (c : call) : M pyval :=
  match c with
  | Get key => get t key
  | Put key value context => put t key value context
  | Has key => has t key
  | Remove key => remove t key
  | Connect => connect t;; mret PyNone
  | Disconnect => disconnect t;; mret PyNone
  | Del => del t;; mret PyNone
  end.

(** The state after a call, whatever its outcome: a caller that catches
    the exception goes on with the same facade. *)
Definition step (tc : thread * call) (st : Client * World) : Client * World :=
  let '(_, self', w') := exec tc.1 tc.2 st.1 st.2 in (self', w').

Definition run (cs : list (thread * call)) (st : Client * World) : Client * World :=
  foldl (fun st tc => step tc st) st cs.

End Facade.

(** The number of connection attempts the world has seen. *)
Definition is_open (e : event) : bool :=
  match e with EvOpen _ _ _ _ => true | _ => false end.

Definition connect_count (w : World) : nat := length (List.filter is_open (log w)).

Definition status_of (w : World) (s : ref) : option status :=
  sock_status <$> sockets w !! s.

(** ** Environments and worlds to run the facade in *)

Definition world0 : World := {| sockets := []; log := [] |}.

(** Every step works and every remote call answers [None]. *)
Definition env_ok : Env :=
  {| ctor_raises := fun _ _ => None;
     open_raises := fun _ _ _ _ => None;
     call_result := fun _ _ _ _ => Return PyNone |}.

(** The target port is closed until one attempt has been made. *)
Definition env_refused_once : Env :=
  {| ctor_raises := fun _ _ => None;
     open_raises := fun h _ _ _ =>
       if List.existsb is_open h then None else Some (TException "Could not connect");
     call_result := fun _ _ _ _ => Return PyNone |}.

(** The generated client cannot be built. *)
Definition env_no_client : Env :=
  {| ctor_raises := fun c _ =>
       match c with CDynomiteClient => Some (TException "no client") | _ => None end;
     open_raises := fun _ _ _ _ => None;
     call_result := fun _ _ _ _ => Return PyNone |}.

(** A test double of the store: it answers from the calls it has seen. *)
Fixpoint stored (h : list event) (key : string) : option string :=
  match h with
  | [] => None
  | e :: h' =>
      match stored h' key with
      | Some v => Some v
      | None =>
          match e with
          | EvCall _ "put" [k; _; v] => if String.eqb k key then Some v else None
          | _ => None
          end
      end
  end.

Definition env_double : Env :=
  {| ctor_raises := fun _ _ => None;
     open_raises := fun _ _ _ _ => None;
     call_result := fun h _ method args =>
       match method, args with
       | "get", [k] =>
           match stored h k with
           | Some v => Return (PyStr v)
           | None => Raise (TException "not found")
           end
       | "put", [_; _; _] => Return (PyInt 1)
       | "has", [k] => Return (PyBool (bool_decide (is_Some (stored h k))))
       | "remove", [k] =>
           match stored h k with
           | Some _ => Return (PyBool true)
           | None => Raise (TException "not found")
           end
       | _, _ => Raise (TException "unknown method")
       end |}.

Definition facade0 : Client := init "localhost" 9191%Z.


(** The cell [connect] leaves for the calling thread when it gets as far as
    building the stack: client and transport over the socket allocated next. *)
Definition new_local (w : World) : Local :=
  {| client := Some (mkDynomite (mkProtocol (mkBuffered (length (sockets w)))));
     transport := Some (mkBuffered (length (sockets w))) |}.

(** Whether the next [open] to the facade's address works. *)
Definition open_ok (E : Env) (self : Client) (w : World) : bool :=
  match open_raises E (log w) (length (sockets w)) (_host self) (_port self) with
  | Some _ => false
  | None => true
  end.

(** The world after [connect] built the stack and tried to open it. *)
Definition opened_world (E : Env) (self : Client) (w : World) : World :=
  {| sockets := sockets w ++
       [mkTSocket (_host self) (_port self) (if open_ok E self w then Opened else Fresh)];
     log := log w ++
       [EvOpen (length (sockets w)) (_host self) (_port self) (open_ok E self w)] |}.

Definition opened_outcome (E : Env) (self : Client) (w : World) : outcome unit :=
  match open_raises E (log w) (length (sockets w)) (_host self) (_port self) with
  | Some e => Raise e
  | None => Return tt
  end.

(** The world after a generated client's method was called. *)
Definition called_world (w : World) (c : DynomiteClient) (method : string)
    (args : list string) : World :=
  {| sockets := sockets w; log := log w ++ [EvCall (socket_of c) method args] |}.

(** The world after a transport was closed. *)
Definition closed_world (w : World) (tr : TBufferedTransport) : World :=
  {| sockets := alter (fun k => mkTSocket (sock_host k) (sock_port k) Closed)
                  (trans tr) (sockets w);
     log := log w ++ [EvClose (trans tr)] |}.

(** What [get], [put], [has] and [remove] share: connect, then call the
    method of the client recorded for the thread. *)
Definition forwarded (E : Env) (t : thread) (method : string) (args : list string)
  : M pyval :=
  connect E t;;
  c ← getattr_client t;
  client_call E c method args.

(** What a facade call stands for on the generated client, if anything. *)
Definition rpc_of (c : call) : option (string * list string) :=
  match c with
  | Get key => Some ("get", [key])
  | Put key value context => Some ("put", [key; default "" context; value])
  | Has key => Some ("has", [key])
  | Remove key => Some ("remove", [key])
  | _ => None
  end.

(** [op] connects and then hands exactly one call of [method] with [args]
    to the client of thread [t]: an error of [connect] comes back as it is,
    and so does whatever the generated client answers or raises. *)
Definition forwards_to (E : Env) (op : M pyval) (t : thread) (method : string)
    (args : list string) (self : Client) (w : World) : Prop :=
  let conn := connect E t self w in
  match conn.1.1 with
  | Raise e => op self w = (Raise e, conn.1.2, conn.2)
  | Return _ =>
      exists c,
        client (local_of conn.1.2 t) = Some c /\
        op self w =
          (call_result E (log conn.2) (socket_of c) method args, conn.1.2,
           called_world conn.2 c method args)
  end.

(** An [open] in the log went to the given address. *)
Definition opens_to (host : string) (port : Z) (e : event) : Prop :=
  match e with
  | EvOpen _ h p _ => h = host /\ p = port
  | _ => True
  end.

(** A cell holds both attributes, over the same socket, or neither. *)
Definition paired (l : Local) : Prop :=
  match client l, transport l with
  | Some c, Some tr => socket_of c = trans tr
  | None, None => True
  | _, _ => False
  end.

(** The cells of a facade against the heap: every cell is paired, every
    recorded transport is allocated, and no two threads record the same one. *)
Record wf (self : Client) (w : World) : Prop := mkWf {
  wf_paired : forall t, paired (local_of self t);
  wf_alloc : forall t tr,
    transport (local_of self t) = Some tr -> trans tr < length (sockets w);
  wf_inj : forall t1 t2 tr1 tr2,
    transport (local_of self t1) = Some tr1 ->
    transport (local_of self t2) = Some tr2 ->
    trans tr1 = trans tr2 -> t1 = t2
}.

(** What one call by thread [t] may do to the facade and to the world: it
    leaves the facade alone or fills the caller's empty cell, the heap only
    grows, allocated sockets other than the caller's keep their state, and
    the log is extended with opens to the facade's address only. *)
Record effect (t : thread) (self : Client) (w : World) (self' : Client) (w' : World)
  : Prop := mkEffect {
  eff_self :
    self' = self \/
    (client (local_of self t) = None /\ self' = set_local self t (new_local w) /\
     length (sockets w) < length (sockets w'));
  eff_grow : length (sockets w) <= length (sockets w');
  eff_heap : forall s,
    s < length (sockets w) -> transport (local_of self t) <> Some (mkBuffered s) ->
    sockets w' !! s = sockets w !! s;
  eff_log : exists evs,
    log w' = log w ++ evs /\ Forall (opens_to (_host self) (_port self)) evs
}.

(** ** How [connect] behaves *)


(** The socket an event is about. *)
Definition event_socket (e : event) : ref :=
  match e with
  | EvOpen s _ _ _ => s
  | EvClose s => s
  | EvCall s _ _ => s
  end.

(** The sockets a call of thread [t] may touch: the one it allocates next,
    the one under the client in its cell, the one under its transport. *)
Definition own_socket (self : Client) (w : World) (t : thread) (s : ref) : Prop :=
  s = length (sockets w) \/
  (exists c, client (local_of self t) = Some c /\ socket_of c = s) \/
  (exists tr, transport (local_of self t) = Some tr /\ trans tr = s).

(** [m] neither reads nor writes the cell of thread [t2]: run on a facade
    whose cell of [t2] was replaced by [l], it gives the same outcome and
    world, and the same facade with that cell replaced. *)
Definition frames {A} (t2 : thread) (l : Local) (m : M A) : Prop :=
  forall self w,
    m (set_local self t2 l) w =
      ((m self w).1.1, set_local (m self w).1.2 t2 l, (m self w).2).

(** A call that leaves the facade alone: it logs no [open], and a socket of
    the heap keeps its record or is closed. *)
Definition quiet (self : Client) (w : World) (self' : Client) (w' : World) : Prop :=
  self' = self /\
  (exists evs, log w' = log w ++ evs /\ Forall (fun e => is_open e = false) evs) /\
  (forall s k, sockets w !! s = Some k ->
     sockets w' !! s = Some k \/
     sockets w' !! s = Some (mkTSocket (sock_host k) (sock_port k) Closed)).

(** A call that fills the caller's cell: it builds the stack, makes the one
    [open] and after that logs no other. *)
Definition filling (E : Env) (t : thread) (self : Client) (w : World)
    (self' : Client) (w' : World) : Prop :=
  client (local_of self t) = None /\
  self' = set_local self t (new_local w) /\
  sockets w' = sockets (opened_world E self w) /\
  exists evs,
    log w' = log (opened_world E self w) ++ evs /\
    Forall (fun e => is_open e = false) evs.

Ltac run_M :=
  unfold connect, disconnect, del, get, put, has, remove,
    TSocket_new, TBufferedTransport_new, TBinaryProtocol_new, DynomiteClient_new,
    construct, alloc, transport_open, transport_close, set_status, client_call,
    hasattr_client, getattr_client, getattr_transport, setattr_client,
    setattr_transport, gets, emit, raise, mbind, mret, M_bind, M_ret;
  cbn.

Section Connect.

Variable E : Env.

Lemma local_of_set_local self t l : local_of (set_local self t l) t = l.
Proof. unfold local_of, set_local; cbn. by rewrite lookup_insert_eq. Qed.

Lemma local_of_set_local_ne self t t' l :
  t <> t' -> local_of (set_local self t l) t' = local_of self t'.
Proof. intros Hne. unfold local_of, set_local; cbn. by rewrite lookup_insert_ne. Qed.

Lemma set_local_twice self t l1 l2 :
  set_local (set_local self t l1) t l2 = set_local self t l2.
Proof. unfold set_local; cbn. by rewrite insert_insert_eq. Qed.

Lemma connect_connected t self w :
  is_Some (client (local_of self t)) -> connect E t self w = (Return tt, self, w).
Proof.
  intros Hc. run_M. by rewrite bool_decide_eq_true_2.
Qed.

Lemma alter_snoc {A} (f : A -> A) (l : list A) (x : A) :
  alter f (length l) (l ++ [x]) = l ++ [f x].
Proof.
  replace (length l) with (length l + 0) by lia.
  by rewrite alter_app_r.
Qed.

Lemma lookup_snoc {A} (l : list A) (x : A) : (l ++ [x]) !! length l = Some x.
Proof. by apply list_lookup_middle. Qed.

Lemma connect_builds t self w :
  client (local_of self t) = None ->
  (forall c, ctor_raises E c (log w) = None) ->
  connect E t self w =
    (opened_outcome E self w, set_local self t (new_local w), opened_world E self w).
Proof.
  intros Hc Hok. run_M.
  rewrite bool_decide_eq_false_2 by (rewrite Hc; apply is_Some_None).
  repeat (rewrite Hok; cbn).
  rewrite lookup_snoc. cbn.
  rewrite set_local_twice, local_of_set_local. cbn.
  unfold opened_outcome, opened_world, open_ok, new_local.
  destruct (open_raises E (log w) (length (sockets w)) (_host self) (_port self));
    cbn; [done|].
  by rewrite alter_snoc.
Qed.

Lemma connect_connected_or_not t self w :
  let r := connect E t self w in
  (is_Some (client (local_of self t)) /\ r = (Return tt, self, w)) \/
  (client (local_of self t) = None /\
   ((exists e extra, r = (Raise e, self, {| sockets := sockets w ++ extra; log := log w |})
      /\ exists c, ctor_raises E c (log w) = Some e) \/
    ((forall c, ctor_raises E c (log w) = None) /\
     r = (opened_outcome E self w, set_local self t (new_local w),
          opened_world E self w)))).
Proof.
  cbn. destruct (client (local_of self t)) as [c|] eqn:Hc.
  { left. split; [done|]. apply connect_connected. by rewrite Hc. }
  right. split; [done|].
  destruct (ctor_raises E CTSocket (log w)) as [e|] eqn:H1.
  { left. exists e, []. split; [|by exists CTSocket].
    run_M. rewrite bool_decide_eq_false_2 by (rewrite Hc; apply is_Some_None).
    rewrite H1. cbn. rewrite app_nil_r. by destruct w. }
  destruct (ctor_raises E CTBufferedTransport (log w)) as [e|] eqn:H2.
  { left. exists e, [mkTSocket (_host self) (_port self) Fresh].
    split; [|by exists CTBufferedTransport].
    run_M. rewrite bool_decide_eq_false_2 by (rewrite Hc; apply is_Some_None).
    rewrite H1. cbn. by rewrite H2. }
  destruct (ctor_raises E CTBinaryProtocol (log w)) as [e|] eqn:H3.
  { left. exists e, [mkTSocket (_host self) (_port self) Fresh].
    split; [|by exists CTBinaryProtocol].
    run_M. rewrite bool_decide_eq_false_2 by (rewrite Hc; apply is_Some_None).
    rewrite H1. cbn. rewrite H2. cbn. by rewrite H3. }
  destruct (ctor_raises E CDynomiteClient (log w)) as [e|] eqn:H4.
  { left. exists e, [mkTSocket (_host self) (_port self) Fresh].
    split; [|by exists CDynomiteClient].
    run_M. rewrite bool_decide_eq_false_2 by (rewrite Hc; apply is_Some_None).
    rewrite H1. cbn. rewrite H2. cbn. rewrite H3. cbn. by rewrite H4. }
  right. assert (forall c, ctor_raises E c (log w) = None) as Hok by (by intros []).
  split; [done|]. by apply connect_builds.
Qed.

(** After [connect] returns, the thread's cell records a client. *)
Lemma connect_returns_client t self w self' w' :
  connect E t self w = (Return tt, self', w') ->
  is_Some (client (local_of self' t)).
Proof.
  intros Hr. destruct (connect_connected_or_not t self w) as [[Hc Heq]|[Hc [Hf|[Hok Heq]]]].
  - cbn in Heq. rewrite Heq in Hr. by simplify_eq.
  - destruct Hf as (e & extra & Heq & _). cbn in Heq. rewrite Heq in Hr. simplify_eq.
  - cbn in Heq. rewrite Heq in Hr. simplify_eq.
    rewrite local_of_set_local. by eexists.
Qed.

Lemma forwarded_unfold t method args self w :
  forwarded E t method args self w =
    match connect E t self w with
    | (Return _, self', w') =>
        match client (local_of self' t) with
        | Some c =>
            (call_result E (log w') (socket_of c) method args, self',
             called_world w' c method args)
        | None => (Raise (AttributeError "client"), self', w')
        end
    | (Raise e, self', w') => (Raise e, self', w')
    end.
Proof.
  unfold forwarded. unfold mbind at 1. unfold M_bind.
  destruct (connect E t self w) as [[[[]|e] self'] w']; [|done].
  unfold getattr_client, gets, client_call, raise, mbind, mret, M_bind, M_ret; cbn.
  by destruct (client (local_of self' t)).
Qed.

Lemma disconnect_unfold t self w :
  disconnect t self w =
    match transport (local_of self t) with
    | Some tr => (Return tt, self, closed_world w tr)
    | None => (Raise (AttributeError "transport"), self, w)
    end.
Proof. run_M. by destruct (transport (local_of self t)). Qed.

End Connect.

(** ** What a call may change *)

Section Effects.

Variable E : Env.

Lemma effect_refl t self w : effect t self w self w.
Proof.
  split; [by left|done|done|].
  exists []. by rewrite app_nil_r.
Qed.

Lemma effect_called t self w self' w' c method args :
  effect t self w self' w' -> effect t self w self' (called_world w' c method args).
Proof.
  intros [Hs Hg Hh (evs & Hl & Hall)]. split; cbn; [done|done|done|].
  exists (evs ++ [EvCall (socket_of c) method args]).
  rewrite Hl, app_assoc. split; [done|].
  apply Forall_app. split; [done|]. by repeat constructor.
Qed.

Lemma effect_connect t self w :
  effect t self w (connect E t self w).1.2 (connect E t self w).2.
Proof.
  destruct (connect_connected_or_not E t self w)
    as [[Hc Heq]|[Hc [(e & extra & Heq & _)|[Hok Heq]]]];
    cbn in Heq; rewrite Heq; cbn.
  - apply effect_refl.
  - split; cbn.
    + by left.
    + rewrite length_app. lia.
    + intros s Hlt _. by rewrite lookup_app_l.
    + exists []. by rewrite app_nil_r.
  - split; cbn.
    + right. split; [done|]. split; [done|]. rewrite length_app. cbn. lia.
    + rewrite length_app. lia.
    + intros s Hlt _. by rewrite lookup_app_l.
    + eexists. split; [done|]. by repeat constructor.
Qed.

Lemma effect_forwarded t method args self w :
  effect t self w (forwarded E t method args self w).1.2
    (forwarded E t method args self w).2.
Proof.
  rewrite forwarded_unfold. pose proof (effect_connect t self w) as Hc.
  destruct (connect E t self w) as [[[[]|e] self'] w']; cbn in *; [|done].
  destruct (client (local_of self' t)); cbn; [|done].
  by apply effect_called.
Qed.

Lemma effect_disconnect t self w :
  effect t self w (disconnect t self w).1.2 (disconnect t self w).2.
Proof.
  rewrite disconnect_unfold.
  destruct (transport (local_of self t)) as [tr|] eqn:Htr; cbn; [|apply effect_refl].
  split; cbn.
  - by left.
  - by rewrite length_alter.
  - intros s Hlt Hne. apply list_lookup_alter_ne. intros Heq. apply Hne.
    destruct tr; cbn in *. by subst.
  - eexists. split; [done|]. by repeat constructor.
Qed.

Lemma bind_ret_state {A B} (m : M A) (b : B) self w :
  ((m;; mret b) self w).1.2 = (m self w).1.2 /\ ((m;; mret b) self w).2 = (m self w).2.
Proof.
  unfold mbind, mret, M_bind, M_ret. by destruct (m self w) as [[[a|e] self'] w'].
Qed.

Lemma exec_rpc t c method args :
  rpc_of c = Some (method, args) -> exec E t c = forwarded E t method args.
Proof. destruct c; cbn; intros; by simplify_eq. Qed.

Lemma effect_exec t c self w :
  effect t self w (exec E t c self w).1.2 (exec E t c self w).2.
Proof.
  destruct (rpc_of c) as [[method args]|] eqn:Hrpc.
  { rewrite (exec_rpc _ _ _ _ Hrpc). apply effect_forwarded. }
  destruct c; try discriminate; cbn; unfold del;
    match goal with
    | |- context [(?m;; mret ?b) self w] =>
        destruct (bind_ret_state m b self w) as [-> ->]
    end.
  - apply effect_connect.
  - apply effect_disconnect.
  - apply effect_disconnect.
Qed.

Lemma step_exec tc st :
  step E tc st = ((exec E tc.1 tc.2 st.1 st.2).1.2, (exec E tc.1 tc.2 st.1 st.2).2).
Proof. unfold step. by destruct (exec E tc.1 tc.2 st.1 st.2) as [[r self'] w']. Qed.

Lemma run_snoc cs tc st : run E (cs ++ [tc]) st = step E tc (run E cs st).
Proof. unfold run. by rewrite foldl_snoc. Qed.

End Effects.

(** ** The cells stay well formed *)

Section Invariant.

Variable E : Env.

Lemma local_of_init host port t : local_of (init host port) t = empty_local.
Proof. unfold local_of, init; cbn. by rewrite lookup_empty. Qed.

Lemma wf_init host port w : wf (init host port) w.
Proof.
  split.
  - intros t. by rewrite local_of_init.
  - intros t tr. by rewrite local_of_init.
  - intros t1 t2 tr1 tr2. by rewrite local_of_init.
Qed.

Lemma paired_new_local w : paired (new_local w).
Proof. done. Qed.

Lemma wf_effect t self w self' w' :
  wf self w -> effect t self w self' w' -> wf self' w'.
Proof.
  intros [Hp Ha Hi] [Hs Hg _ _].
  destruct Hs as [->|(Hc & -> & Hlt)].
  { split; [done| |done]. intros t0 tr Htr. specialize (Ha t0 tr Htr). lia. }
  assert (forall t0 tr, t0 <> t ->
            transport (local_of (set_local self t (new_local w)) t0) = Some tr ->
            trans tr < length (sockets w)) as Hold.
  { intros t0 tr Hne. rewrite local_of_set_local_ne by done. apply Ha. }
  split.
  - intros t0. destruct (decide (t = t0)) as [->|Hne].
    + rewrite local_of_set_local. apply paired_new_local.
    + by rewrite local_of_set_local_ne.
  - intros t0 tr. destruct (decide (t0 = t)) as [->|Hne].
    + rewrite local_of_set_local. cbn. intros [= <-]. done.
    + intros Htr. specialize (Hold t0 tr Hne Htr). lia.
  - intros t1 t2 tr1 tr2.
    destruct (decide (t1 = t)) as [->|Hne1], (decide (t2 = t)) as [->|Hne2]; [done|..].
    + rewrite local_of_set_local. cbn. intros [= <-] Htr2 Heq. cbn in Heq.
      specialize (Hold t2 tr2 Hne2 Htr2). lia.
    + rewrite (local_of_set_local _ t). cbn. intros Htr1 [= <-] Heq. cbn in Heq.
      specialize (Hold t1 tr1 Hne1 Htr1). lia.
    + rewrite !local_of_set_local_ne by done. apply Hi.
Qed.

Lemma wf_step tc st : wf st.1 st.2 -> wf (step E tc st).1 (step E tc st).2.
Proof.
  intros Hwf. rewrite step_exec. cbn.
  eapply wf_effect; [exact Hwf|apply effect_exec].
Qed.

Lemma wf_run cs st : wf st.1 st.2 -> wf (run E cs st).1 (run E cs st).2.
Proof.
  induction cs as [|tc cs IH] using rev_ind; [done|].
  intros Hwf. rewrite run_snoc. by apply wf_step, IH.
Qed.

End Invariant.

(** ** The facade's contract *)

Section Contract.

Variable E : Env.

Lemma forwarded_forwards t method args self w :
  forwards_to E (forwarded E t method args) t method args self w.
Proof.
  unfold forwards_to. cbn. rewrite forwarded_unfold.
  destruct (connect E t self w) as [[[[]|e] self'] w'] eqn:Hconn; cbn; [|done].
  destruct (connect_returns_client E t self w self' w' Hconn) as [c Hc].
  exists c. by rewrite Hc.
Qed.

(** C3: [put(key, value, context)], with [context] the empty string when
    omitted, connects and then calls [put] on the thread's generated client
    with the positional arguments [key; context; value], context before
    value, and returns what that call returns. *)
Theorem put_forwards_key_context_value t key value context self w :
  forwards_to E (put E t key value context) t "put"
    [key; default "" context; value] self w.
Proof. apply (forwarded_forwards t "put"). Qed.



(** C4: on a thread whose cell records no transport, [disconnect()] raises
    the attribute error for [transport] and changes nothing; it is not a
    silent no-op. *)
Theorem disconnect_without_connection t self w :
  transport (local_of self t) = None ->
  disconnect t self w = (Raise (AttributeError "transport"), self, w).
Proof. intros Hnone. by rewrite disconnect_unfold, Hnone. Qed.

Lemma connect_count_snoc w e ws :
  connect_count {| sockets := ws; log := log w ++ [e] |} =
    connect_count w + (if is_open e then 1 else 0).
Proof.
  unfold connect_count; cbn. rewrite List.filter_app, length_app. cbn.
  by destruct (is_open e).
Qed.

Lemma connect_count_opened self w :
  connect_count (opened_world E self w) = S (connect_count w).
Proof. unfold opened_world. rewrite connect_count_snoc. cbn. lia. Qed.

(** C5: [connect()] is idempotent per thread.  With a client recorded in
    the thread's cell it returns at once, facade and world unchanged.  From
    an empty cell it builds the stack, records it and makes exactly one
    connection attempt, and a second [connect()] then does nothing. *)
Theorem connect_idempotent t self w :
  (is_Some (client (local_of self t)) -> connect E t self w = (Return tt, self, w)) /\
  (local_of self t = empty_local ->
   (forall c, ctor_raises E c (log w) = None) ->
   let r := connect E t self w in
   r = (opened_outcome E self w, set_local self t (new_local w), opened_world E self w) /\
   connect_count r.2 = S (connect_count w) /\
   length (sockets r.2) = S (length (sockets w)) /\
   connect E t r.1.2 r.2 = (Return tt, r.1.2, r.2)).
Proof.
  split; [apply connect_connected|].
  intros Hempty Hok. cbn.
  rewrite connect_builds by (by rewrite ?Hempty). cbn.
  split; [done|]. split; [apply connect_count_opened|].
  split; [rewrite length_app; cbn; lia|].
  apply connect_connected. rewrite local_of_set_local. by eexists.
Qed.

End Contract.

(** ** A call reads and writes the caller's cell only *)

Section Frame.

Variable E : Env.

Lemma frames_ret {A} t2 l (a : A) : frames t2 l (mret a).
Proof. done. Qed.

Lemma frames_raise {A} t2 l e : frames t2 l (raise (A := A) e).
Proof. done. Qed.

Lemma frames_bind {A B} t2 l (m : M A) (k : A -> M B) :
  frames t2 l m -> (forall a, frames t2 l (k a)) -> frames t2 l (m ≫= k).
Proof.
  intros Hm Hk self w. unfold mbind, M_bind. rewrite Hm.
  destruct (m self w) as [[[a|e] self'] w']; cbn; [apply Hk|done].
Qed.

Lemma frames_gets {A} t2 l (f : Client -> A) :
  (forall self, f (set_local self t2 l) = f self) -> frames t2 l (gets f).
Proof. intros Hf self w. unfold gets. cbn. by rewrite Hf. Qed.

Lemma frames_construct t2 l c : frames t2 l (construct E c).
Proof. intros self w. unfold construct. by destruct (ctor_raises E c (log w)). Qed.

Lemma frames_alloc t2 l k : frames t2 l (alloc k).
Proof. done. Qed.

Lemma frames_transport_open t2 l tr : frames t2 l (transport_open E tr).
Proof.
  intros self w. unfold transport_open.
  destruct (sockets w !! trans tr) as [k|]; [|done].
  by destruct (open_raises E (log w) (trans tr) (sock_host k) (sock_port k)).
Qed.

Lemma frames_transport_close t2 l tr : frames t2 l (transport_close tr).
Proof. done. Qed.

Lemma frames_client_call t2 l c method args :
  frames t2 l (client_call E c method args).
Proof. done. Qed.

Lemma frames_hasattr_client t t2 l : t <> t2 -> frames t2 l (hasattr_client t).
Proof.
  intros Hne. apply frames_gets. intros self.
  by rewrite local_of_set_local_ne.
Qed.

Lemma frames_getattr_client t t2 l : t <> t2 -> frames t2 l (getattr_client t).
Proof.
  intros Hne. apply frames_bind.
  - apply frames_gets. intros self. by rewrite local_of_set_local_ne.
  - intros a. destruct (client a); [apply frames_ret|apply frames_raise].
Qed.

Lemma frames_getattr_transport t t2 l : t <> t2 -> frames t2 l (getattr_transport t).
Proof.
  intros Hne. apply frames_bind.
  - apply frames_gets. intros self. by rewrite local_of_set_local_ne.
  - intros a. destruct (transport a); [apply frames_ret|apply frames_raise].
Qed.

Lemma set_local_commute self t t2 l1 l2 :
  t <> t2 ->
  set_local (set_local self t2 l2) t l1 = set_local (set_local self t l1) t2 l2.
Proof.
  intros Hne. unfold set_local. cbn. f_equal. by apply insert_insert_ne.
Qed.

Lemma frames_setattr_client t t2 l c : t <> t2 -> frames t2 l (setattr_client t c).
Proof.
  intros Hne self w. unfold setattr_client. cbn.
  rewrite local_of_set_local_ne by done. by rewrite set_local_commute.
Qed.

Lemma frames_setattr_transport t t2 l tr :
  t <> t2 -> frames t2 l (setattr_transport t tr).
Proof.
  intros Hne self w. unfold setattr_transport. cbn.
  rewrite local_of_set_local_ne by done. by rewrite set_local_commute.
Qed.

Lemma frames_connect t t2 l : t <> t2 -> frames t2 l (connect E t).
Proof.
  intros Hne. unfold connect.
  apply frames_bind; [by apply frames_hasattr_client|].
  intros [|]; [apply frames_ret|].
  apply frames_bind; [by apply frames_gets|]. intros host.
  apply frames_bind; [by apply frames_gets|]. intros port.
  apply frames_bind.
  { apply frames_bind; [apply frames_construct|]. intros _. apply frames_alloc. }
  intros s. apply frames_bind.
  { apply frames_bind; [apply frames_construct|]. intros _. apply frames_ret. }
  intros tr. apply frames_bind.
  { apply frames_bind; [apply frames_construct|]. intros _. apply frames_ret. }
  intros p. apply frames_bind.
  { apply frames_bind; [apply frames_construct|]. intros _. apply frames_ret. }
  intros c. apply frames_bind; [by apply frames_setattr_client|]. intros _.
  apply frames_bind; [by apply frames_setattr_transport|]. intros _.
  apply frames_transport_open.
Qed.

Lemma frames_forwarded t t2 l method args :
  t <> t2 -> frames t2 l (forwarded E t method args).
Proof.
  intros Hne. unfold forwarded.
  apply frames_bind; [by apply frames_connect|]. intros _.
  apply frames_bind; [by apply frames_getattr_client|]. intros c.
  apply frames_client_call.
Qed.

Lemma frames_disconnect t t2 l : t <> t2 -> frames t2 l (disconnect t).
Proof.
  intros Hne. unfold disconnect.
  apply frames_bind; [by apply frames_getattr_transport|]. intros tr.
  apply frames_transport_close.
Qed.

Lemma frames_exec t t2 l c : t <> t2 -> frames t2 l (exec E t c).
Proof.
  intros Hne. destruct (rpc_of c) as [[method args]|] eqn:Hrpc.
  { rewrite (exec_rpc E _ _ _ _ Hrpc). by apply frames_forwarded. }
  destruct c; try discriminate; cbn; unfold del;
    (apply frames_bind; [|intros _; apply frames_ret]).
  - by apply frames_connect.
  - by apply frames_disconnect.
  - by apply frames_disconnect.
Qed.

Lemma Forall_own_nil self w t : Forall (fun e => own_socket self w t (event_socket e)) [].
Proof. constructor. Qed.

Lemma connect_own_events t self w :
  exists evs,
    log (connect E t self w).2 = log w ++ evs /\
    Forall (fun e => own_socket self w t (event_socket e)) evs.
Proof.
  destruct (connect_connected_or_not E t self w)
    as [[Hc Heq]|[Hc [(e & extra & Heq & _)|[Hok Heq]]]];
    cbn in Heq; rewrite Heq; cbn.
  - exists []. by rewrite app_nil_r.
  - exists []. by rewrite app_nil_r.
  - eexists. split; [done|]. constructor; [by left|constructor].
Qed.

Lemma forwarded_own_events t method args self w :
  exists evs,
    log (forwarded E t method args self w).2 = log w ++ evs /\
    Forall (fun e => own_socket self w t (event_socket e)) evs.
Proof.
  rewrite forwarded_unfold.
  destruct (connect_connected_or_not E t self w)
    as [[Hc Heq]|[Hc [(e & extra & Heq & _)|[Hok Heq]]]];
    cbn in Heq; rewrite Heq; cbn.
  - destruct Hc as [c Hc]. rewrite Hc. cbn. eexists. split; [done|].
    constructor; [|constructor]. right. left. by exists c.
  - exists []. by rewrite app_nil_r.
  - destruct (opened_outcome E self w) as [[]|e].
    + rewrite local_of_set_local. cbn. rewrite <- app_assoc. eexists. split; [done|].
      constructor; [by left|]. constructor; [by left|constructor].
    + cbn. eexists. split; [done|]. constructor; [by left|constructor].
Qed.

Lemma disconnect_own_events t self w :
  exists evs,
    log (disconnect t self w).2 = log w ++ evs /\
    Forall (fun e => own_socket self w t (event_socket e)) evs.
Proof.
  rewrite disconnect_unfold.
  destruct (transport (local_of self t)) as [tr|] eqn:Htr; cbn.
  - eexists. split; [done|]. constructor; [|constructor].
    right. right. by exists tr.
  - exists []. by rewrite app_nil_r.
Qed.

Lemma exec_own_events t c self w :
  exists evs,
    log (exec E t c self w).2 = log w ++ evs /\
    Forall (fun e => own_socket self w t (event_socket e)) evs.
Proof.
  destruct (rpc_of c) as [[method args]|] eqn:Hrpc.
  { rewrite (exec_rpc E _ _ _ _ Hrpc). apply forwarded_own_events. }
  destruct c; try discriminate; cbn; unfold del;
    match goal with
    | |- context [(?m;; mret ?b) self w] =>
        destruct (bind_ret_state m b self w) as [_ ->]
    end.
  - apply connect_own_events.
  - apply disconnect_own_events.
  - apply disconnect_own_events.
Qed.

(** In a well formed state the sockets a thread may touch are not the one
    another thread records. *)
Lemma own_socket_other self w t1 t2 tr s :
  wf self w -> t1 <> t2 ->
  transport (local_of self t2) = Some tr ->
  own_socket self w t1 s -> s <> trans tr.
Proof.
  intros [Hp Ha Hi] Hne Htr [->|[(c & Hc & <-)|(tr1 & Htr1 & <-)]] Heq.
  - specialize (Ha t2 tr Htr). lia.
  - specialize (Hp t1). unfold paired in Hp. rewrite Hc in Hp.
    destruct (transport (local_of self t1)) as [tr1|] eqn:Htr1; [|done].
    apply Hne. apply (Hi t1 t2 tr1 tr Htr1 Htr). congruence.
  - apply Hne. by apply (Hi t1 t2 tr1 tr Htr1 Htr).
Qed.

End Frame.

(** ** Disconnecting, failing and the other threads *)

Section Lifecycle.

Variable E : Env.

Lemma status_of_closed w tr :
  trans tr < length (sockets w) ->
  status_of (closed_world w tr) (trans tr) = Some Closed.
Proof.
  intros Hlt. unfold status_of, closed_world; cbn.
  rewrite list_lookup_alter_eq.
  destruct (lookup_lt_is_Some_2 (sockets w) (trans tr) Hlt) as [k ->]. done.
Qed.

Lemma step_connect t self w :
  step E (t, Connect) (self, w) = ((connect E t self w).1.2, (connect E t self w).2).
Proof.
  rewrite step_exec. cbn.
  by destruct (bind_ret_state (connect E t) PyNone self w) as [-> ->].
Qed.

Lemma step_disconnect t self w :
  step E (t, Disconnect) (self, w) = ((disconnect t self w).1.2, (disconnect t self w).2).
Proof.
  rewrite step_exec. cbn.
  by destruct (bind_ret_state (disconnect t) PyNone self w) as [-> ->].
Qed.

(** C1, as the code has it: after [connect], [disconnect] and then one of
    [get], [put], [has], [remove] on a thread that started with an empty
    cell, exactly one connection attempt has been made.  [disconnect] leaves
    the cell in place, so the last call does not reconnect: it goes to the
    client recorded by the first [connect], over the closed socket. *)
Theorem one_attempt_after_disconnect t c method args self w :
  rpc_of c = Some (method, args) ->
  local_of self t = empty_local ->
  (forall k, ctor_raises E k (log w) = None) ->
  let st := run E [(t, Connect); (t, Disconnect); (t, c)] (self, w) in
  let s := length (sockets w) in
  connect_count st.2 = S (connect_count w) /\
  log st.2 =
    log w ++ [EvOpen s (_host self) (_port self) (open_ok E self w);
              EvClose s; EvCall s method args] /\
  status_of st.2 s = Some Closed /\
  st.1 = set_local self t (new_local w).
Proof.
  intros Hrpc Hempty Hok. cbn.
  rewrite step_connect, connect_builds by (by rewrite ?Hempty). cbn.
  rewrite step_disconnect, disconnect_unfold, local_of_set_local. cbn.
  rewrite step_exec. cbn. rewrite (exec_rpc E _ _ _ _ Hrpc), forwarded_unfold.
  rewrite connect_connected by (rewrite local_of_set_local; by eexists).
  rewrite local_of_set_local. cbn.
  split; [|split; [|split]]; [| | |done].
  - unfold connect_count. rewrite !List.filter_app, !length_app. cbn. lia.
  - by rewrite <- !app_assoc.
  - unfold status_of. cbn. by rewrite alter_snoc, lookup_snoc.
Qed.

(** C2, as the code has it: on a thread with no client recorded, a
    constructor that raises leaves the facade and the log as they were, but
    an [open] that raises comes after the cell was filled: the error is
    propagated, the cell keeps the client and the never opened transport,
    and every later [connect()] returns at once without a new attempt. *)
Theorem failed_connect_state t self w :
  client (local_of self t) = None ->
  let r := connect E t self w in
  (forall k e, ctor_raises E k (log w) = Some e ->
     (exists e', r.1.1 = Raise e') /\ r.1.2 = self /\ log r.2 = log w) /\
  ((forall k, ctor_raises E k (log w) = None) ->
   forall e, open_raises E (log w) (length (sockets w)) (_host self) (_port self) = Some e ->
     r.1.1 = Raise e /\
     local_of r.1.2 t = new_local w /\
     status_of r.2 (length (sockets w)) = Some Fresh /\
     connect_count r.2 = S (connect_count w) /\
     forall w2, connect E t r.1.2 w2 = (Return tt, r.1.2, w2)).
Proof.
  intros Hc. cbn. split.
  - intros k e Hk.
    destruct (connect_connected_or_not E t self w)
      as [[[? Hs] _]|[_ [(e' & extra & Heq & _)|[Hok _]]]].
    + congruence.
    + cbn in Heq. rewrite Heq. cbn. eauto.
    + rewrite Hok in Hk. done.
  - intros Hok e He. rewrite connect_builds by done. cbn.
    unfold opened_outcome, status_of, opened_world, open_ok. rewrite He. cbn.
    rewrite local_of_set_local, lookup_snoc. cbn.
    split; [done|]. split; [done|]. split; [done|].
    split; [unfold connect_count; rewrite List.filter_app, length_app; cbn; lia|].
    intros w2. apply connect_connected. rewrite local_of_set_local. by eexists.
Qed.

Lemma step_keeps_client tc t cl st :
  client (local_of st.1 t) = Some cl ->
  client (local_of (step E tc st).1 t) = Some cl.
Proof.
  intros Hcl. rewrite step_exec. cbn.
  destruct (effect_exec E tc.1 tc.2 st.1 st.2) as [[->|(Hc & -> & _)] _ _ _]; [done|].
  destruct (decide (tc.1 = t)) as [Heq|Hne]; [congruence|].
  by rewrite local_of_set_local_ne.
Qed.

Lemma step_keeps_transport tc t st :
  is_Some (transport (local_of st.1 t)) ->
  is_Some (transport (local_of (step E tc st).1 t)).
Proof.
  intros Htr. rewrite step_exec. cbn.
  destruct (effect_exec E tc.1 tc.2 st.1 st.2) as [[->|(Hc & -> & _)] _ _ _]; [done|].
  destruct (decide (tc.1 = t)) as [<-|Hne].
  - rewrite local_of_set_local. by eexists.
  - by rewrite local_of_set_local_ne.
Qed.

Lemma run_keeps_client cs t cl st :
  client (local_of st.1 t) = Some cl ->
  client (local_of (run E cs st).1 t) = Some cl.
Proof.
  intros Hcl. induction cs as [|tc cs IH] using rev_ind; [done|].
  rewrite run_snoc. by apply step_keeps_client.
Qed.

Lemma run_keeps_transport cs t st :
  is_Some (transport (local_of st.1 t)) ->
  is_Some (transport (local_of (run E cs st).1 t)).
Proof.
  intros Htr. induction cs as [|tc cs IH] using rev_ind; [done|].
  rewrite run_snoc. by apply step_keeps_transport.
Qed.

(** C9: [disconnect()] closes the calling thread's socket and leaves the
    facade, the cell included, as it was; and no calls of any threads remove
    an attribute from a cell: a recorded client stays the same client, a
    recorded transport stays recorded. *)
Theorem disconnect_keeps_cell t tr cs self w :
  transport (local_of self t) = Some tr ->
  (disconnect t self w = (Return tt, self, closed_world w tr) /\
   (trans tr < length (sockets w) ->
    status_of (closed_world w tr) (trans tr) = Some Closed)) /\
  (let self' := (run E cs (self, w)).1 in
   (forall cl, client (local_of self t) = Some cl ->
      client (local_of self' t) = Some cl) /\
   is_Some (transport (local_of self' t))).
Proof.
  intros Htr. split.
  - split; [by rewrite disconnect_unfold, Htr|apply status_of_closed].
  - cbn. split.
    + intros cl Hcl. by apply run_keeps_client.
    + apply run_keeps_transport. cbn. rewrite Htr. by eexists.
Qed.

Lemma run_facade host port w0 cs :
  _host (run E cs (init host port, w0)).1 = host /\
  _port (run E cs (init host port, w0)).1 = port /\
  exists evs,
    log (run E cs (init host port, w0)).2 = log w0 ++ evs /\
    Forall (opens_to host port) evs.
Proof.
  induction cs as [|[t c] cs IH] using rev_ind.
  { cbn. split; [done|]. split; [done|]. exists []. by rewrite app_nil_r. }
  rewrite run_snoc, step_exec. cbn.
  destruct (run E cs (init host port, w0)) as [self w]. cbn in *.
  destruct IH as (Hh & Hp & evs & Hl & Hall).
  destruct (effect_exec E t c self w) as [Hs _ _ (evs' & Hl' & Hall')].
  split; [|split].
  - destruct Hs as [->|(_ & -> & _)]; done.
  - destruct Hs as [->|(_ & -> & _)]; done.
  - exists (evs ++ evs'). rewrite Hl', Hl, app_assoc. split; [done|].
    apply Forall_app. split; [done|]. by rewrite <- Hh, <- Hp.
Qed.

(** C8: whatever calls are made on a facade built with [host] and [port],
    by whatever threads, its [_host] and [_port] are still those, and every
    transport it opened was opened to exactly that address. *)
Theorem host_port_immutable host port w0 cs :
  let st := run E cs (init host port, w0) in
  _host st.1 = host /\ _port st.1 = port /\
  exists evs, log st.2 = log w0 ++ evs /\ Forall (opens_to host port) evs.
Proof. apply run_facade. Qed.

Lemma wf_reachable host port w0 cs :
  wf (run E cs (init host port, w0)).1 (run E cs (init host port, w0)).2.
Proof. apply wf_run. cbn. apply wf_init. Qed.

(** C7: after any calls on a facade, a further call by thread [t1], a
    [disconnect] included, leaves the cell of any other thread [t2] as it
    was, and the socket recorded by [t2] in the state it had: [t2] goes on
    with its own connection.  The call reads the cell of [t1] only: had the
    cell of [t2] held anything else, the outcome and the world would be the
    same and that cell still untouched.  And the call uses the connection of
    [t1] only: nothing it opens, closes or calls is on the socket recorded
    by [t2]. *)
Theorem thread_isolation host port w0 cs t1 t2 c :
  t1 <> t2 ->
  let st := run E cs (init host port, w0) in
  let st' := step E (t1, c) st in
  local_of st'.1 t2 = local_of st.1 t2 /\
  (forall tr, transport (local_of st.1 t2) = Some tr ->
     sockets st'.2 !! trans tr = sockets st.2 !! trans tr) /\
  (forall l,
     exec E t1 c (set_local st.1 t2 l) st.2 =
       ((exec E t1 c st.1 st.2).1.1, set_local (exec E t1 c st.1 st.2).1.2 t2 l,
        (exec E t1 c st.1 st.2).2)) /\
  (exists evs,
     log st'.2 = log st.2 ++ evs /\
     forall tr, transport (local_of st.1 t2) = Some tr ->
       Forall (fun e => event_socket e <> trans tr) evs).
Proof.
  intros Hne. cbn. pose proof (wf_reachable host port w0 cs) as Hwf.
  rewrite step_exec. cbn.
  destruct (run E cs (init host port, w0)) as [self w]. cbn in *.
  destruct (effect_exec E t1 c self w) as [Hs _ Hh _].
  split; [|split; [|split]].
  - destruct Hs as [->|(_ & -> & _)]; [done|]. by rewrite local_of_set_local_ne.
  - destruct Hwf as [Hp Ha Hi]. intros tr Htr. apply Hh; [by eapply Ha|].
    intros Htr1. apply Hne. by eapply (Hi t1 t2 _ tr).
  - intros l. by apply frames_exec.
  - destruct (exec_own_events E t1 c self w) as (evs & Hl & Hown).
    exists evs. split; [done|]. intros tr Htr.
    eapply Forall_impl; [exact Hown|]. intros e He. cbn in He.
    by eapply own_socket_other.
Qed.

(** C10: after any calls on a facade, returned or raised, every thread's
    cell records a client exactly when it records a transport. *)
Theorem client_iff_transport host port w0 cs t :
  let st := run E cs (init host port, w0) in
  is_Some (client (local_of st.1 t)) <-> is_Some (transport (local_of st.1 t)).
Proof.
  cbn. pose proof (wf_reachable host port w0 cs) as [Hp _ _].
  specialize (Hp t). unfold paired in Hp.
  destruct (client (local_of _ t)), (transport (local_of _ t));
    try done; split; intros [? ?]; done.
Qed.

End Lifecycle.

(** ** The contract at work *)

(** [put("a", "1")] then [get("a")] from one thread against the test double:
    the double sees the put with an empty context, the get returns the
    value, and one connection was attempted. *)
Example put_then_get :
  let st := run env_double [(0, Put "a" "1" None)] (facade0, world0) in
  let r := get env_double 0 "a" st.1 st.2 in
  r.1.1 = Return (PyStr "1") /\
  log r.2 = [EvOpen 0 "localhost" 9191%Z true;
             EvCall 0 "put" ["a"; ""; "1"]; EvCall 0 "get" ["a"]] /\
  connect_count r.2 = 1.
Proof. vm_compute. done. Qed.

Example put_with_context :
  log (put env_ok 0 "k" "v" (Some "c") facade0 world0).2 =
    [EvOpen 0 "localhost" 9191%Z true; EvCall 0 "put" ["k"; "c"; "v"]].
Proof. reflexivity. Qed.

Example has_missing :
  has env_double 0 "missing" facade0 world0 =
    (Return (PyBool false),
     set_local facade0 0 (new_local world0),
     called_world (opened_world env_double facade0 world0)
       (mkDynomite (mkProtocol (mkBuffered 0))) "has" ["missing"]).
Proof. reflexivity. Qed.

Example remove_missing :
  (remove env_double 0 "a" facade0 world0).1.1 = Raise (TException "not found").
Proof. reflexivity. Qed.

Example no_client_leaves_cell_empty :
  connect env_no_client 0 facade0 world0 =
    (Raise (TException "no client"), facade0,
     {| sockets := [mkTSocket "localhost" 9191%Z Fresh]; log := [] |}).
Proof. reflexivity. Qed.

Lemma disconnect_without_connection_witness :
  transport (local_of facade0 0) = None /\
  disconnect 0 facade0 world0 = (Raise (AttributeError "transport"), facade0, world0).
Proof.
  split; [reflexivity|].
  apply (disconnect_without_connection 0 facade0 world0). reflexivity.
Defined.

Lemma connect_idempotent_witness :
  local_of facade0 0 = empty_local /\
  (forall c, ctor_raises env_ok c (log world0) = None) /\
  connect_count (connect env_ok 0 facade0 world0).2 = S (connect_count world0) /\
  connect env_ok 0 (connect env_ok 0 facade0 world0).1.2
    (connect env_ok 0 facade0 world0).2 =
    (Return tt, (connect env_ok 0 facade0 world0).1.2,
     (connect env_ok 0 facade0 world0).2).
Proof.
  assert (local_of facade0 0 = empty_local) as Hempty by reflexivity.
  assert (forall c, ctor_raises env_ok c (log world0) = None) as Hok
    by (intros c; reflexivity).
  split; [exact Hempty|]. split; [exact Hok|].
  destruct (connect_idempotent env_ok 0 facade0 world0) as [_ Hfresh].
  destruct (Hfresh Hempty Hok) as (_ & Hcount & _ & Hagain).
  split; [exact Hcount|exact Hagain].
Defined.

(** C1 as it was stated fails: after connect, disconnect, get on one thread
    the world has seen one connection attempt, not two. *)
Lemma reconnect_counterexample :
  connect_count
    (run env_ok [(0, Connect); (0, Disconnect); (0, Get "a")] (facade0, world0)).2 <> 2.
Proof. vm_compute. lia. Qed.

Lemma one_attempt_after_disconnect_witness :
  rpc_of (Get "a") = Some ("get", ["a"]) /\
  local_of facade0 0 = empty_local /\
  (forall k, ctor_raises env_ok k (log world0) = None) /\
  connect_count
    (run env_ok [(0, Connect); (0, Disconnect); (0, Get "a")] (facade0, world0)).2 =
    S (connect_count world0).
Proof.
  assert (forall k, ctor_raises env_ok k (log world0) = None) as Hok
    by (intros k; reflexivity).
  split; [reflexivity|]. split; [reflexivity|]. split; [exact Hok|].
  apply (one_attempt_after_disconnect env_ok 0 (Get "a") "get" ["a"] facade0 world0);
    [reflexivity|reflexivity|exact Hok].
Defined.

(** C2 as it was stated fails: the port is closed at the first [connect],
    which raises, and the cell is not empty afterwards; the second
    [connect], with the port now open, makes no attempt, and the socket the
    cell records was never opened. *)
Lemma failed_connect_counterexample :
  local_of facade0 0 = empty_local /\
  (connect env_refused_once 0 facade0 world0).1.1 =
    Raise (TException "Could not connect") /\
  local_of (connect env_refused_once 0 facade0 world0).1.2 0 <> empty_local /\
  let st := run env_refused_once [(0, Connect); (0, Connect)] (facade0, world0) in
  connect_count st.2 = 1 /\ status_of st.2 0 = Some Fresh.
Proof. vm_compute. repeat split; congruence. Qed.

Lemma failed_connect_state_witness :
  client (local_of facade0 0) = None /\
  (forall k, ctor_raises env_refused_once k (log world0) = None) /\
  (connect env_refused_once 0 facade0 world0).1.1 =
    Raise (TException "Could not connect") /\
  local_of (connect env_refused_once 0 facade0 world0).1.2 0 = new_local world0.
Proof.
  assert (client (local_of facade0 0) = None) as Hc by reflexivity.
  assert (forall k, ctor_raises env_refused_once k (log world0) = None) as Hok
    by (intros k; reflexivity).
  split; [exact Hc|]. split; [exact Hok|].
  destruct (failed_connect_state env_refused_once 0 facade0 world0 Hc) as [_ Hopen].
  destruct (Hopen Hok (TException "Could not connect") eq_refl) as (Hr & Hl & _).
  split; [exact Hr|exact Hl].
Defined.

Lemma disconnect_keeps_cell_witness :
  let st := step env_ok (0, Connect) (facade0, world0) in
  transport (local_of st.1 0) = Some (mkBuffered 0) /\
  disconnect 0 st.1 st.2 = (Return tt, st.1, closed_world st.2 (mkBuffered 0)) /\
  is_Some (transport
    (local_of (run env_ok [(0, Disconnect); (1, Get "a"); (0, Del)] st).1 0)).
Proof.
  cbn zeta.
  assert (transport (local_of (step env_ok (0, Connect) (facade0, world0)).1 0) =
          Some (mkBuffered 0)) as Htr by reflexivity.
  split; [exact Htr|].
  destruct (disconnect_keeps_cell env_ok 0 (mkBuffered 0)
              [(0, Disconnect); (1, Get "a"); (0, Del)]
              (step env_ok (0, Connect) (facade0, world0)).1
              (step env_ok (0, Connect) (facade0, world0)).2 Htr)
    as [[Hd _] [_ Hkeep]].
  split; [exact Hd|].
  by destruct (step env_ok (0, Connect) (facade0, world0)).
Defined.

Lemma thread_isolation_witness :
  0 <> 1 /\
  let st := run env_ok [(0, Connect); (1, Connect)] (facade0, world0) in
  local_of (step env_ok (0, Disconnect) st).1 1 = local_of st.1 1 /\
  exec env_ok 0 (Get "a") (set_local st.1 1 empty_local) st.2 =
    ((exec env_ok 0 (Get "a") st.1 st.2).1.1,
     set_local (exec env_ok 0 (Get "a") st.1 st.2).1.2 1 empty_local,
     (exec env_ok 0 (Get "a") st.1 st.2).2).
Proof.
  assert (0 <> 1) as Hne by lia.
  split; [exact Hne|]. cbn zeta. split.
  - exact (proj1 (thread_isolation env_ok "localhost" 9191%Z world0
                    [(0, Connect); (1, Connect)] 0 1 Disconnect Hne)).
  - exact (proj1 (proj2 (proj2 (thread_isolation env_ok "localhost" 9191%Z world0
                    [(0, Connect); (1, Connect)] 0 1 (Get "a") Hne))) empty_local).
Defined.

(** ** Quiet calls and filling calls *)

Section Shape.

Variable E : Env.

Lemma quiet_refl self w : quiet self w self w.
Proof.
  split; [done|]. split; [|by left].
  exists []. by rewrite app_nil_r.
Qed.

Lemma quiet_called self w self' w' c method args :
  quiet self w self' w' -> quiet self w self' (called_world w' c method args).
Proof.
  intros (Hs & (evs & Hl & Hall) & Hh). split; [done|]. split; [|done].
  exists (evs ++ [EvCall (socket_of c) method args]). cbn.
  rewrite Hl, app_assoc. split; [done|].
  apply Forall_app. split; [done|]. by repeat constructor.
Qed.

Lemma filling_called t self w self' w' c method args :
  filling E t self w self' w' -> filling E t self w self' (called_world w' c method args).
Proof.
  intros (Hc & Hs & Hh & evs & Hl & Hall). split; [done|]. split; [done|].
  split; [done|].
  exists (evs ++ [EvCall (socket_of c) method args]). cbn.
  rewrite Hl, app_assoc. split; [done|].
  apply Forall_app. split; [done|]. by repeat constructor.
Qed.

Lemma shape_connect t self w :
  quiet self w (connect E t self w).1.2 (connect E t self w).2 \/
  filling E t self w (connect E t self w).1.2 (connect E t self w).2.
Proof.
  destruct (connect_connected_or_not E t self w)
    as [[Hc Heq]|[Hc [(e & extra & Heq & _)|[Hok Heq]]]];
    cbn in Heq; rewrite Heq; cbn.
  - left. apply quiet_refl.
  - left. split; [done|]. split; cbn.
    + exists []. by rewrite app_nil_r.
    + intros s k Hk. left. rewrite lookup_app_l; [done|]. by eapply lookup_lt_Some.
  - right. split; [done|]. split; [done|]. split; [done|].
    exists []. by rewrite app_nil_r.
Qed.

Lemma shape_forwarded t method args self w :
  quiet self w (forwarded E t method args self w).1.2
    (forwarded E t method args self w).2 \/
  filling E t self w (forwarded E t method args self w).1.2
    (forwarded E t method args self w).2.
Proof.
  rewrite forwarded_unfold. pose proof (shape_connect t self w) as Hc.
  destruct (connect E t self w) as [[[[]|e] self'] w']; cbn in *; [|done].
  destruct (client (local_of self' t)); cbn; [|done].
  destruct Hc as [Hq|Hf]; [left; by apply quiet_called|right; by apply filling_called].
Qed.

Lemma quiet_disconnect t self w :
  quiet self w (disconnect t self w).1.2 (disconnect t self w).2.
Proof.
  rewrite disconnect_unfold.
  destruct (transport (local_of self t)) as [tr|]; cbn; [|apply quiet_refl].
  split; [done|]. split; cbn.
  - eexists. split; [done|]. by repeat constructor.
  - intros s k Hk. destruct (decide (trans tr = s)) as [<-|Hne].
    + right. by rewrite list_lookup_alter_eq, Hk.
    + left. by rewrite list_lookup_alter_ne.
Qed.

Lemma shape_exec t c self w :
  quiet self w (exec E t c self w).1.2 (exec E t c self w).2 \/
  filling E t self w (exec E t c self w).1.2 (exec E t c self w).2.
Proof.
  destruct (rpc_of c) as [[method args]|] eqn:Hrpc.
  { rewrite (exec_rpc _ _ _ _ _ Hrpc). apply shape_forwarded. }
  destruct c; try discriminate; cbn; unfold del;
    match goal with
    | |- context [(?m;; mret ?b) self w] =>
        destruct (bind_ret_state m b self w) as [-> ->]
    end.
  - apply shape_connect.
  - left. apply quiet_disconnect.
  - left. apply quiet_disconnect.
Qed.

Lemma filter_no_open evs :
  Forall (fun e => is_open e = false) evs -> List.filter is_open evs = [].
Proof.
  induction 1 as [|e evs He _ IH]; [done|]. cbn. by rewrite He.
Qed.

Lemma quiet_count self w self' w' :
  quiet self w self' w' -> connect_count w' = connect_count w.
Proof.
  intros (_ & (evs & Hl & Hall) & _). unfold connect_count.
  rewrite Hl, List.filter_app, (filter_no_open evs Hall), app_nil_r. done.
Qed.

Lemma filling_count t self w self' w' :
  filling E t self w self' w' -> connect_count w' = S (connect_count w).
Proof.
  intros (_ & _ & _ & evs & Hl & Hall). unfold connect_count.
  rewrite Hl, List.filter_app, (filter_no_open evs Hall), app_nil_r. cbn.
  rewrite List.filter_app, length_app. cbn. lia.
Qed.

End Shape.

(** ** More of the facade's behaviour *)

Section Behaviour.

Variable E : Env.

(** X1: an explicit [connect()] before [get], [put], [has] or [remove] is
    redundant: connecting and then calling gives the outcome, the facade and
    the world that the call alone gives, also when connecting raises. *)
Theorem connect_before_call_redundant t c method args self w :
  rpc_of c = Some (method, args) ->
  (connect E t;; exec E t c) self w = exec E t c self w.
Proof.
  intros Hrpc. rewrite (exec_rpc E _ _ _ _ Hrpc).
  unfold mbind at 1. unfold M_bind.
  rewrite (forwarded_unfold E t method args self w).
  destruct (connect E t self w) as [[[[]|e] self'] w'] eqn:Hconn; [|done].
  rewrite forwarded_unfold, connect_connected; [done|].
  by eapply connect_returns_client.
Qed.

(** X2: once a thread's cell records a client, every later [get], [put],
    [has] or [remove] of that thread, after any calls of any threads, goes
    to that same client: no connection is attempted, the facade and the
    heap are untouched and the one call is logged. *)
Theorem calls_reach_same_client t cl c method args cs self w :
  client (local_of self t) = Some cl ->
  rpc_of c = Some (method, args) ->
  let st := run E cs (self, w) in
  exec E t c st.1 st.2 =
    (call_result E (log st.2) (socket_of cl) method args, st.1,
     called_world st.2 cl method args).
Proof.
  intros Hcl Hrpc. cbn.
  pose proof (run_keeps_client E cs t cl (self, w) Hcl) as Hkept.
  rewrite (exec_rpc E _ _ _ _ Hrpc), forwarded_unfold.
  rewrite connect_connected by (rewrite Hkept; by eexists).
  by rewrite Hkept.
Qed.

Lemma step_socket tc st s k :
  sockets st.2 !! s = Some k ->
  sockets (step E tc st).2 !! s = Some k \/
  sockets (step E tc st).2 !! s = Some (mkTSocket (sock_host k) (sock_port k) Closed).
Proof.
  intros Hk. rewrite step_exec. cbn.
  destruct (shape_exec E tc.1 tc.2 st.1 st.2)
    as [(_ & _ & Hh)|(_ & _ & Hh & _)]; [by apply Hh|].
  left. rewrite Hh. cbn. rewrite lookup_app_l; [done|]. by eapply lookup_lt_Some.
Qed.

Lemma run_socket cs st s k :
  sockets st.2 !! s = Some k ->
  (sockets (run E cs st).2 !! s = Some k \/
   sockets (run E cs st).2 !! s =
     Some (mkTSocket (sock_host k) (sock_port k) Closed)) /\
  (sock_status k = Closed -> sockets (run E cs st).2 !! s = Some k).
Proof.
  intros Hk.
  assert (sockets (run E cs st).2 !! s = Some k \/
          sockets (run E cs st).2 !! s =
            Some (mkTSocket (sock_host k) (sock_port k) Closed)) as Hrun.
  { induction cs as [|tc cs IH] using rev_ind; [by left|].
    rewrite run_snoc. destruct IH as [IH|IH].
    - by apply step_socket.
    - right. by destruct (step_socket tc _ _ _ IH). }
  split; [done|]. intros Hclosed.
  destruct k as [h p status]; cbn in *; subst. by destruct Hrun.
Qed.

(** X3: no call ever reopens a socket or changes its address: whatever
    calls are made, a socket of the heap keeps its record or has become
    closed, and a closed socket stays exactly as it is. *)
Theorem sockets_never_reopened s k cs self w :
  sockets w !! s = Some k ->
  let w' := (run E cs (self, w)).2 in
  (sockets w' !! s = Some k \/
   sockets w' !! s = Some (mkTSocket (sock_host k) (sock_port k) Closed)) /\
  (sock_status k = Closed -> sockets w' !! s = Some k).
Proof. intros Hk. by apply (run_socket cs (self, w)). Qed.

Lemma step_keeps_cell tc t cl st :
  client (local_of st.1 t) = Some cl ->
  local_of (step E tc st).1 t = local_of st.1 t.
Proof.
  intros Hcl. rewrite step_exec. cbn.
  destruct (shape_exec E tc.1 tc.2 st.1 st.2) as [(-> & _)|(Hc & -> & _)]; [done|].
  destruct (decide (tc.1 = t)) as [Heq|Hne]; [congruence|].
  by rewrite local_of_set_local_ne.
Qed.

Lemma run_keeps_cell cs t cl st :
  client (local_of st.1 t) = Some cl ->
  local_of (run E cs st).1 t = local_of st.1 t.
Proof.
  intros Hcl. induction cs as [|tc cs IH] using rev_ind; [done|].
  rewrite run_snoc, (step_keeps_cell _ _ cl); [done|]. by rewrite IH.
Qed.

(** X4: a thread that has a client never connects again: whatever calls
    that thread goes on to make, [disconnect] included, the facade stays as
    it is and no further connection attempt is made. *)
Theorem never_reconnects t cl cs self w :
  client (local_of self t) = Some cl ->
  Forall (fun tc => tc.1 = t) cs ->
  (run E cs (self, w)).1 = self /\
  connect_count (run E cs (self, w)).2 = connect_count w.
Proof.
  intros Hcl. induction cs as [|tc cs IH] using rev_ind; [done|].
  intros [Hcs Htc]%Forall_app. destruct (IH Hcs) as [Hself Hcount].
  apply (proj1 (Forall_singleton _ tc)) in Htc.
  rewrite run_snoc, step_exec. cbn.
  destruct (shape_exec E tc.1 tc.2 (run E cs (self, w)).1 (run E cs (self, w)).2)
    as [Hq|(Hc & _)].
  - split; [|by rewrite (quiet_count _ _ _ _ Hq)].
    destruct Hq as [Hs _]. by rewrite Hs.
  - cbn in Htc. rewrite Hself, Htc in Hc. congruence.
Qed.

(** X5: [disconnect()] is final for the thread: after it, whatever calls
    any threads make, the thread's cell is the one it had, still recording
    the same client and transport, and the socket they stand on is closed. *)
Theorem disconnect_is_final t cl tr cs self w :
  client (local_of self t) = Some cl ->
  transport (local_of self t) = Some tr ->
  trans tr < length (sockets w) ->
  let st := run E ((t, Disconnect) :: cs) (self, w) in
  local_of st.1 t = local_of self t /\
  status_of st.2 (trans tr) = Some Closed.
Proof.
  intros Hcl Htr Hlt st. subst st.
  change (run E ((t, Disconnect) :: cs) (self, w))
    with (run E cs (step E (t, Disconnect) (self, w))).
  rewrite step_disconnect, disconnect_unfold, Htr. cbn [fst snd].
  split; [by apply (run_keeps_cell cs t cl (self, closed_world w tr))|].
  destruct (lookup_lt_is_Some_2 (sockets w) (trans tr) Hlt) as [k Hk].
  assert (sockets (self, closed_world w tr).2 !! trans tr =
          Some (mkTSocket (sock_host k) (sock_port k) Closed)) as Hclosed.
  { cbn. by rewrite list_lookup_alter_eq, Hk. }
  destruct (run_socket cs _ _ _ Hclosed) as [_ Hstay].
  unfold status_of.
  exact (f_equal (fmap sock_status) (Hstay eq_refl)).
Qed.

Lemma run_other_threads cs t st :
  Forall (fun tc => tc.1 <> t) cs ->
  local_of (run E cs st).1 t = local_of st.1 t.
Proof.
  induction cs as [|tc cs IH] using rev_ind; [done|].
  intros [Hcs Htc]%Forall_app. apply (proj1 (Forall_singleton _ tc)) in Htc.
  rewrite run_snoc, step_exec, <- (IH Hcs). cbn.
  destruct (shape_exec E tc.1 tc.2 (run E cs st).1 (run E cs st).2)
    as [(-> & _)|(_ & -> & _)]; [done|].
  by rewrite local_of_set_local_ne.
Qed.

(** X6: teardown on a thread that never called the facade fails and closes
    nothing: after any calls of other threads, [__del__] run on such a
    thread raises the attribute error for [transport] and leaves the facade
    and the world, the other threads' open sockets included, as they are. *)
Theorem del_on_unused_thread host port w0 cs t :
  Forall (fun tc => tc.1 <> t) cs ->
  let st := run E cs (init host port, w0) in
  del t st.1 st.2 = (Raise (AttributeError "transport"), st.1, st.2).
Proof.
  intros Hcs. cbn. unfold del. rewrite disconnect_unfold.
  rewrite (run_other_threads cs t _ Hcs). cbn. by rewrite local_of_init.
Qed.

(** X7: a lazy connect that fails is not retried.  When the [open] behind
    the first [get], [put], [has] or [remove] of a thread raises, that call
    raises the same error and no remote call is made; the next call of the
    thread makes no connection attempt and goes to the client over the
    socket that was never opened. *)
Theorem failed_lazy_connect t c1 m1 a1 c2 m2 a2 e self w :
  rpc_of c1 = Some (m1, a1) ->
  rpc_of c2 = Some (m2, a2) ->
  client (local_of self t) = None ->
  (forall k, ctor_raises E k (log w) = None) ->
  open_raises E (log w) (length (sockets w)) (_host self) (_port self) = Some e ->
  let self1 := set_local self t (new_local w) in
  let w1 := opened_world E self w in
  let cl := mkDynomite (mkProtocol (mkBuffered (length (sockets w)))) in
  exec E t c1 self w = (Raise e, self1, w1) /\
  log w1 = log w ++ [EvOpen (length (sockets w)) (_host self) (_port self) false] /\
  status_of w1 (length (sockets w)) = Some Fresh /\
  exec E t c2 self1 w1 =
    (call_result E (log w1) (length (sockets w)) m2 a2, self1, called_world w1 cl m2 a2).
Proof.
  intros H1 H2 Hc Hok He. cbn zeta.
  assert (open_ok E self w = false) as Hno by (unfold open_ok; by rewrite He).
  split; [|split; [|split]].
  - rewrite (exec_rpc E _ _ _ _ H1), forwarded_unfold, connect_builds by done.
    unfold opened_outcome. by rewrite He.
  - unfold opened_world. cbn. by rewrite Hno.
  - unfold status_of, opened_world. cbn. by rewrite lookup_snoc, Hno.
  - rewrite (exec_rpc E _ _ _ _ H2), forwarded_unfold.
    rewrite connect_connected by (rewrite local_of_set_local; by eexists).
    by rewrite local_of_set_local.
Qed.

Lemma run_attempts host port w0 cs :
  (forall t l, _con (run E cs (init host port, w0)).1 !! t = Some l ->
     is_Some (client l)) /\
  connect_count (run E cs (init host port, w0)).2 =
    connect_count w0 + size (_con (run E cs (init host port, w0)).1).
Proof.
  induction cs as [|tc cs IH] using rev_ind.
  { cbn. split; [intros t l; by rewrite lookup_empty|].
    rewrite map_size_empty. lia. }
  rewrite run_snoc, step_exec. cbn.
  destruct (run E cs (init host port, w0)) as [self w]. cbn in *.
  destruct IH as [Hfilled Hcount].
  destruct (shape_exec E tc.1 tc.2 self w) as [Hq|Hf].
  - rewrite (quiet_count _ _ _ _ Hq). by destruct Hq as [-> _].
  - rewrite (filling_count E _ _ _ _ _ Hf). destruct Hf as (Hc & -> & _).
    assert (_con self !! tc.1 = None) as Hnone.
    { destruct (_con self !! tc.1) as [l|] eqn:Hl; [|done].
      destruct (Hfilled _ _ Hl) as [cl Hcl].
      unfold local_of in Hc. rewrite Hl in Hc. cbn in Hc. congruence. }
    cbn. split.
    + intros t l. destruct (decide (tc.1 = t)) as [<-|Hne].
      * rewrite lookup_insert_eq. intros [= <-]. by eexists.
      * rewrite lookup_insert_ne by done. apply Hfilled.
    + rewrite map_size_insert_None by done. lia.
Qed.

(** X8: one connection attempt per thread, ever.  Whatever calls are made
    on a facade, the connection attempts it has made are as many as the
    threads that have a cell: [disconnect] or a failed [open] never leads to
    a second attempt for a thread. *)
Theorem one_attempt_per_thread host port w0 cs :
  let st := run E cs (init host port, w0) in
  connect_count st.2 = connect_count w0 + size (_con st.1).
Proof. apply run_attempts. Qed.

Lemma run_cell_socket host port w0 cs t tr :
  transport (local_of (run E cs (init host port, w0)).1 t) = Some tr ->
  exists k,
    sockets (run E cs (init host port, w0)).2 !! trans tr = Some k /\
    sock_host k = host /\ sock_port k = port.
Proof.
  revert t tr. induction cs as [|tc cs IH] using rev_ind.
  { intros t tr. cbn. by rewrite local_of_init. }
  intros t tr. rewrite run_snoc, step_exec. cbn.
  destruct (run_facade E host port w0 cs) as (Hh & Hp & _).
  destruct (run E cs (init host port, w0)) as [self w]. cbn in *.
  destruct (shape_exec E tc.1 tc.2 self w)
    as [(-> & _ & Hheap)|(Hc & -> & Hheap & _)].
  - intros Htr. destruct (IH t tr Htr) as (k & Hk & Hkh & Hkp).
    destruct (Hheap _ _ Hk) as [Hk'|Hk']; eexists; (split; [exact Hk'|done]).
  - rewrite Hheap. cbn. destruct (decide (tc.1 = t)) as [<-|Hne].
    + rewrite local_of_set_local. cbn. intros [= <-]. cbn.
      rewrite lookup_snoc. by eexists.
    + rewrite local_of_set_local_ne by done. intros Htr.
      destruct (IH t tr Htr) as (k & Hk & Hkh & Hkp).
      exists k. split; [|done]. rewrite lookup_app_l; [done|].
      by eapply lookup_lt_Some.
Qed.

(** X9: every thread owns its connection.  In every state a facade can
    reach, a transport recorded by a thread stands on an allocated socket
    built with the facade's host and port, the thread's client is the one
    built over that transport, and no other thread records the same
    transport. *)
Theorem cells_own_sockets host port w0 cs t tr :
  let st := run E cs (init host port, w0) in
  transport (local_of st.1 t) = Some tr ->
  client (local_of st.1 t) = Some (mkDynomite (mkProtocol tr)) /\
  (exists k, sockets st.2 !! trans tr = Some k /\
             sock_host k = host /\ sock_port k = port) /\
  (forall t', transport (local_of st.1 t') = Some tr -> t' = t).
Proof.
  cbn. intros Htr. pose proof (wf_reachable E host port w0 cs) as [Hp _ Hi].
  split; [|split].
  - specialize (Hp t). unfold paired in Hp. rewrite Htr in Hp.
    destruct (client (local_of _ t)) as [[[[n]]]|]; [|done].
    destruct tr as [m]. unfold socket_of in Hp. cbn in Hp. by subst.
  - by apply (run_cell_socket host port w0 cs t tr).
  - intros t' Htr'. by apply (Hi t' t tr tr).
Qed.

Lemma connect_keeps_sockets t self w s k :
  sockets w !! s = Some k -> sockets (connect E t self w).2 !! s = Some k.
Proof.
  intros Hk. assert (s < length (sockets w)) as Hlt by (by eapply lookup_lt_Some).
  destruct (connect_connected_or_not E t self w)
    as [[Hc Heq]|[Hc [(e & extra & Heq & _)|[Hok Heq]]]];
    cbn in Heq; rewrite Heq; cbn; [done|..]; by rewrite lookup_app_l.
Qed.

(** X10: [connect], [get], [put], [has] and [remove] never close or
    otherwise change a socket of the heap: only [disconnect] and [__del__]
    do. *)
Theorem only_disconnect_closes t c self w s k :
  c <> Disconnect -> c <> Del ->
  sockets w !! s = Some k ->
  sockets (exec E t c self w).2 !! s = Some k.
Proof.
  intros Hd Hdel Hk.
  destruct (rpc_of c) as [[method args]|] eqn:Hrpc.
  - rewrite (exec_rpc E _ _ _ _ Hrpc), forwarded_unfold.
    pose proof (connect_keeps_sockets t self w s k Hk) as Hc.
    destruct (connect E t self w) as [[[[]|e] self'] w']; cbn in *; [|done].
    by destruct (client (local_of self' t)).
  - destruct c; try discriminate; try done. cbn.
    destruct (bind_ret_state (connect E t) PyNone self w) as [_ ->].
    by apply connect_keeps_sockets.
Qed.

End Behaviour.

(** ** The behaviour at work *)

Lemma connect_before_call_redundant_witness :
  rpc_of (Get "a") = Some ("get", ["a"]) /\
  (connect env_double 0;; exec env_double 0 (Get "a")) facade0 world0 =
    exec env_double 0 (Get "a") facade0 world0.
Proof.
  split; [reflexivity|].
  apply (connect_before_call_redundant env_double 0 (Get "a") "get" ["a"]).
  reflexivity.
Defined.

Lemma calls_reach_same_client_witness :
  let st0 := step env_ok (0, Connect) (facade0, world0) in
  let cl := mkDynomite (mkProtocol (mkBuffered 0)) in
  let st := run env_ok [(0, Disconnect); (1, Put "k" "v" None)] st0 in
  client (local_of st0.1 0) = Some cl /\
  rpc_of (Has "k") = Some ("has", ["k"]) /\
  exec env_ok 0 (Has "k") st.1 st.2 =
    (call_result env_ok (log st.2) (socket_of cl) "has" ["k"], st.1,
     called_world st.2 cl "has" ["k"]).
Proof.
  cbn zeta.
  assert (client (local_of (step env_ok (0, Connect) (facade0, world0)).1 0) =
          Some (mkDynomite (mkProtocol (mkBuffered 0)))) as Hcl by reflexivity.
  split; [exact Hcl|]. split; [reflexivity|].
  pose proof (calls_reach_same_client env_ok 0 _ (Has "k") "has" ["k"]
                [(0, Disconnect); (1, Put "k" "v" None)]
                (step env_ok (0, Connect) (facade0, world0)).1
                (step env_ok (0, Connect) (facade0, world0)).2 Hcl eq_refl) as Hcall.
  exact Hcall.
Defined.

Lemma sockets_never_reopened_witness :
  let st0 := run env_ok [(0, Connect); (0, Disconnect)] (facade0, world0) in
  let k := mkTSocket "localhost" 9191%Z Closed in
  sockets st0.2 !! 0 = Some k /\
  sockets (run env_ok [(0, Get "a"); (0, Connect); (1, Connect)] st0).2 !! 0 = Some k.
Proof.
  cbn zeta.
  assert (sockets (run env_ok [(0, Connect); (0, Disconnect)] (facade0, world0)).2 !! 0 =
          Some (mkTSocket "localhost" 9191%Z Closed)) as Hk by reflexivity.
  split; [exact Hk|].
  destruct (sockets_never_reopened env_ok 0 _
              [(0, Get "a"); (0, Connect); (1, Connect)]
              (run env_ok [(0, Connect); (0, Disconnect)] (facade0, world0)).1
              (run env_ok [(0, Connect); (0, Disconnect)] (facade0, world0)).2 Hk)
    as [_ Hstay].
  exact (Hstay eq_refl).
Defined.

Lemma never_reconnects_witness :
  let st0 := step env_ok (0, Connect) (facade0, world0) in
  let cs := [(0, Disconnect); (0, Get "a"); (0, Connect)] in
  client (local_of st0.1 0) = Some (mkDynomite (mkProtocol (mkBuffered 0))) /\
  Forall (fun tc : thread * call => tc.1 = 0) cs /\
  connect_count (run env_ok cs (st0.1, st0.2)).2 = connect_count st0.2.
Proof.
  cbn zeta.
  assert (client (local_of (step env_ok (0, Connect) (facade0, world0)).1 0) =
          Some (mkDynomite (mkProtocol (mkBuffered 0)))) as Hcl by reflexivity.
  assert (Forall (fun tc : thread * call => tc.1 = 0)
            [(0, Disconnect); (0, Get "a"); (0, Connect)]) as Hcs
    by (repeat constructor).
  split; [exact Hcl|]. split; [exact Hcs|].
  exact (proj2 (never_reconnects env_ok 0 _ _ _ _ Hcl Hcs)).
Defined.

Lemma disconnect_is_final_witness :
  let st0 := step env_ok (0, Connect) (facade0, world0) in
  let st := run env_ok [(0, Disconnect); (0, Get "a"); (1, Connect)] (st0.1, st0.2) in
  client (local_of st0.1 0) = Some (mkDynomite (mkProtocol (mkBuffered 0))) /\
  transport (local_of st0.1 0) = Some (mkBuffered 0) /\
  0 < length (sockets st0.2) /\
  status_of st.2 0 = Some Closed.
Proof.
  cbn zeta.
  assert (client (local_of (step env_ok (0, Connect) (facade0, world0)).1 0) =
          Some (mkDynomite (mkProtocol (mkBuffered 0)))) as Hcl by reflexivity.
  assert (transport (local_of (step env_ok (0, Connect) (facade0, world0)).1 0) =
          Some (mkBuffered 0)) as Htr by reflexivity.
  assert (trans (mkBuffered 0) <
          length (sockets (step env_ok (0, Connect) (facade0, world0)).2)) as Hlt
    by (vm_compute; lia).
  split; [exact Hcl|]. split; [exact Htr|]. split; [exact Hlt|].
  exact (proj2 (disconnect_is_final env_ok 0 _ _ [(0, Get "a"); (1, Connect)]
                  _ _ Hcl Htr Hlt)).
Defined.

Lemma del_on_unused_thread_witness :
  let cs := [(0, Connect); (0, Get "a")] in
  let st := run env_ok cs (init "localhost" 9191%Z, world0) in
  Forall (fun tc : thread * call => tc.1 <> 1) cs /\
  del 1 st.1 st.2 = (Raise (AttributeError "transport"), st.1, st.2).
Proof.
  cbn zeta.
  assert (Forall (fun tc : thread * call => tc.1 <> 1) [(0, Connect); (0, Get "a")])
    as Hcs by (repeat constructor; cbn; lia).
  split; [exact Hcs|].
  exact (del_on_unused_thread env_ok "localhost" 9191%Z world0 _ 1 Hcs).
Defined.

Lemma failed_lazy_connect_witness :
  rpc_of (Get "a") = Some ("get", ["a"]) /\
  client (local_of facade0 0) = None /\
  (forall k, ctor_raises env_refused_once k (log world0) = None) /\
  open_raises env_refused_once (log world0) (length (sockets world0))
    (_host facade0) (_port facade0) = Some (TException "Could not connect") /\
  exec env_refused_once 0 (Get "a") facade0 world0 =
    (Raise (TException "Could not connect"), set_local facade0 0 (new_local world0),
     opened_world env_refused_once facade0 world0).
Proof.
  assert (forall k, ctor_raises env_refused_once k (log world0) = None) as Hok
    by (intros k; reflexivity).
  split; [reflexivity|]. split; [reflexivity|]. split; [exact Hok|].
  split; [reflexivity|].
  exact (proj1 (failed_lazy_connect env_refused_once 0 (Get "a") "get" ["a"]
                  (Get "a") "get" ["a"] _ facade0 world0
                  eq_refl eq_refl eq_refl Hok eq_refl)).
Defined.

Lemma cells_own_sockets_witness :
  let st := run env_ok [(0, Connect); (1, Connect)] (init "localhost" 9191%Z, world0) in
  transport (local_of st.1 1) = Some (mkBuffered 1) /\
  client (local_of st.1 1) = Some (mkDynomite (mkProtocol (mkBuffered 1))).
Proof.
  cbn zeta.
  assert (transport
            (local_of
               (run env_ok [(0, Connect); (1, Connect)]
                  (init "localhost" 9191%Z, world0)).1 1) =
          Some (mkBuffered 1)) as Htr by reflexivity.
  split; [exact Htr|].
  exact (proj1 (cells_own_sockets env_ok "localhost" 9191%Z world0
                  [(0, Connect); (1, Connect)] 1 (mkBuffered 1) Htr)).
Defined.

Lemma only_disconnect_closes_witness :
  let st0 := step env_ok (0, Connect) (facade0, world0) in
  let k := mkTSocket "localhost" 9191%Z Opened in
  Get "a" <> Disconnect /\ Get "a" <> Del /\
  sockets st0.2 !! 0 = Some k /\
  sockets (exec env_ok 1 (Get "a") st0.1 st0.2).2 !! 0 = Some k.
Proof.
  cbn zeta.
  assert (Get "a" <> Disconnect) as Hd by discriminate.
  assert (Get "a" <> Del) as Hdel by discriminate.
  assert (sockets (step env_ok (0, Connect) (facade0, world0)).2 !! 0 =
          Some (mkTSocket "localhost" 9191%Z Opened)) as Hk by reflexivity.
  split; [exact Hd|]. split; [exact Hdel|]. split; [exact Hk|].
  exact (only_disconnect_closes env_ok 1 (Get "a") _ _ 0 _ Hd Hdel Hk).
Defined.


